(** * PasswordGeneratorComposite: a shallow embedding of [main.cpp]

    The program builds a password from character-class generators
    (leaves of a Composite pattern) held by a composite generator that
    owns a [std::mt19937] engine.  The classes of [main.cpp] are embedded
    as one inductive type, their virtual member functions as functions by
    case on the dynamic type; member functions that mutate [*this] return
    the new object next to their value; exceptions and undefined behaviour
    are explicit outcomes.

    The facilities of [<random>] and [<algorithm>] the program calls are
    not code of the program: they are taken as an interface ([StdRandom])
    with the contract the C++ standard gives them ([StdRandomSpec]).
    Memory is unbounded: [std::bad_alloc] and [std::length_error] are
    not modelled. *)

From Stdlib Require Import ZArith NArith List Ascii String Permutation Lia Bool.
Import ListNotations.

Set Warnings "-register-all".

Local Open Scope Z_scope.
Local Open Scope string_scope.

(** ** Machine integers *)

(** [size_t] is 64 bits wide and [int] 32 bits wide; both are carried by
    [Z], and the conversions of the source are written out. *)
Module Int.

Definition size_t_modulus : Z := 2 ^ 64.
Definition int_modulus : Z := 2 ^ 32.

(** unsigned [size_t] subtraction, [x - y] wrapping around *)
Definition size_t_sub (x y : Z) : Z := (x - y) mod size_t_modulus.

(** [static_cast<int>(x)]: the value congruent to [x] in the range of [int] *)
Definition static_cast_int (x : Z) : Z :=
  (x + 2 ^ 31) mod int_modulus - 2 ^ 31.

(** the implicit conversion of an [int] to [size_t] (an index) *)
Definition to_size_t (x : Z) : Z := x mod size_t_modulus.

End Int.

(** ** Outcomes of member functions *)

(** A [const] member function either returns its value or throws. *)
Inductive thrown (A : Type) : Type :=
| Value (a : A)
| Raise (what : string).
Arguments Value {A} a.
Arguments Raise {A} what.

(** A member function that may change the object it is called on (state
    [S]) returns a value and the new state, or throws leaving the state
    reached so far, or has undefined behaviour. *)
Inductive outcome (S A : Type) : Type :=
| Returns (a : A) (s : S)
| Throws (what : string) (s : S)
| Undefined.
Arguments Returns {S A} a s.
Arguments Throws {S A} what s.
Arguments Undefined {S A}.

Definition bind {S A B : Type} (m : outcome S A) (k : A -> S -> outcome S B)
  : outcome S B :=
  match m with
  | Returns a s => k a s
  | Throws what s => Throws what s
  | Undefined => Undefined
  end.

(** ** The standard library the program uses *)

(** [mt19937] and [random_device] are the states of [std::mt19937] and
    [std::random_device].  [uniform_int_distribution a b eng] is one call
    [ud(eng)] of a [std::uniform_int_distribution<>] constructed as
    [ud(a, b)]; [shuffle s eng] is [std::shuffle(begin(s), end(s), eng)];
    [random_device_call] is [rd()]; [seed xs] is the engine after
    [eng.seed(seq)] for a [std::seed_seq] built from [xs]. *)
Class StdRandom : Type := {
  mt19937 : Type;
  random_device : Type;
  uniform_int_distribution : Z -> Z -> mt19937 -> Z * mt19937;
  shuffle : string -> mt19937 -> string * mt19937;
  random_device_call : random_device -> Z * random_device;
  seed : list Z -> mt19937
}.

(** What the standard promises: a draw of a distribution constructed
    with [a <= b] lies in [[a, b]], and [std::shuffle] permutes. *)
Class StdRandomSpec (R : StdRandom) : Prop := {
  uniform_int_distribution_range :
    forall (a b : Z) (eng : mt19937),
      a <= b -> a <= fst (uniform_int_distribution a b eng) <= b;
  shuffle_Permutation :
    forall (s : string) (eng : mt19937),
      Permutation (list_ascii_of_string s)
                  (list_ascii_of_string (fst (shuffle s eng)))
}.

(** [std::mt19937::state_size] *)
Definition state_size : nat := 624.

(** ** std::string *)

(** [s[pos]] for a [const]-free [std::string]: the character at [pos],
    the terminating null character at [pos == size()], and undefined
    behaviour ([None]) beyond. *)
Definition subscript (s : string) (pos : Z) : option ascii :=
  if (pos =? Z.of_nat (String.length s))%Z then Some zero
  else if ((0 <=? pos) && (pos <? Z.of_nat (String.length s)))%Z
       then String.get (Z.to_nat pos) s
       else None.

(** [s += c] *)
Definition push_back (s : string) (c : ascii) : string :=
  s ++ String c EmptyString.

Definition newline : string := String (ascii_of_nat 10) EmptyString.

(** [static_cast<int>(chars.length() - 1)], the upper bound handed to
    the distribution. *)
Definition upper_bound (chars : string) : Z :=
  Int.static_cast_int (Int.size_t_sub (Z.of_nat (String.length chars)) 1).

Section Program.

Context {R : StdRandom}.

(** ** The class hierarchy *)

(** [BasicPasswordGenerator] is abstract: it holds [len_] and leaves
    [AllowedChars] pure virtual; each class derived from it overrides
    [AllowedChars] with a function returning one constant string.  An
    object of such a class is therefore its [len_] and that string; the
    four classes of the program are the four definitions below.  An
    object of type [CompositePasswordGenerator] carries [eng_], [rd_]
    and [generators_], which may hold generators of any dynamic type. *)
Inductive PasswordGenerator : Type :=
| BasicPasswordGenerator (allowed_chars : string) (len_ : N)
| CompositePasswordGenerator (eng_ : mt19937) (rd_ : random_device)
                             (generators_ : list PasswordGenerator).

Definition DigitGenerator (len : N) : PasswordGenerator :=
  BasicPasswordGenerator "0123456789" len.

Definition SymbolGenerator (len : N) : PasswordGenerator :=
  BasicPasswordGenerator "!@#$%^&*()[]{}?<>" len.

Definition UpperLetterGenerator (len : N) : PasswordGenerator :=
  BasicPasswordGenerator "ABCDEFGHIJKLMNOPQRSTUVXYWZ" len.

Definition LowerLetterGenerator (len : N) : PasswordGenerator :=
  BasicPasswordGenerator "abcdefghijklmnopqrstuvxywz" len.

(** ** Virtual member functions *)

Definition Length (this : PasswordGenerator) : thrown N :=
  match this with
  | BasicPasswordGenerator _ len_ => Value len_
  | CompositePasswordGenerator _ _ _ => Raise "not implemented"
  end.

Definition AllowedChars (this : PasswordGenerator) : thrown string :=
  match this with
  | BasicPasswordGenerator allowed_chars _ => Value allowed_chars
  | CompositePasswordGenerator _ _ _ => Raise "not implemented"
  end.

Definition Add (this generator : PasswordGenerator)
  : outcome PasswordGenerator unit :=
  match this with
  | BasicPasswordGenerator _ _ => Throws "not implemented" this
  | CompositePasswordGenerator eng_ rd_ generators_ =>
      Returns tt
        (CompositePasswordGenerator eng_ rd_ (generators_ ++ [generator]))
  end.

(** The inner loop of [Generate], [n] iterations left: one draw of
    [ud(0, hi)] and one [password += chars[...]] per iteration. *)
Fixpoint append_chars (chars : string) (hi : Z) (n : nat)
         (password : string) (eng : mt19937) : outcome mt19937 string :=
  match n with
  | O => Returns password eng
  | S n' =>
      let (k, eng') := uniform_int_distribution 0 hi eng in
      match subscript chars (Int.to_size_t k) with
      | Some c => append_chars chars hi n' (push_back password c) eng'
      | None => Undefined
      end
  end.

(** The range-for loop of [Generate] over [generators_].  Constructing
    the distribution with an upper bound below [0] breaks its
    precondition [a <= b]: undefined behaviour.  [Length()] is
    re-evaluated by the loop condition at every iteration and always
    yields the same value, the iteration count. *)
Fixpoint collect (generators : list PasswordGenerator)
         (password : string) (eng : mt19937) : outcome mt19937 string :=
  match generators with
  | [] => Returns password eng
  | generator :: rest =>
      match AllowedChars generator with
      | Raise what => Throws what eng
      | Value chars =>
          let hi := upper_bound chars in
          if (hi <? 0)%Z then Undefined
          else
            match Length generator with
            | Raise what => Throws what eng
            | Value len =>
                bind (append_chars chars hi (N.to_nat len) password eng)
                     (collect rest)
            end
      end
  end.

Definition Generate (this : PasswordGenerator)
  : outcome PasswordGenerator string :=
  match this with
  | BasicPasswordGenerator _ _ => Throws "not implemented" this
  | CompositePasswordGenerator eng_ rd_ generators_ =>
      match collect generators_ EmptyString eng_ with
      | Returns password eng =>
          let (shuffled, eng') := shuffle password eng in
          Returns shuffled (CompositePasswordGenerator eng' rd_ generators_)
      | Throws what eng =>
          Throws what (CompositePasswordGenerator eng rd_ generators_)
      | Undefined => Undefined
      end
  end.

(** ** Construction and the entry point *)

(** [std::generate] over the [int] array [seed_data] with [rd_]: each
    [unsigned int] drawn is stored converted to [int]. *)
Fixpoint generate (n : nat) (rd : random_device)
  : list Z * random_device :=
  match n with
  | O => ([], rd)
  | S n' =>
      let (x, rd1) := random_device_call rd in
      let (xs, rd2) := generate n' rd1 in
      (Int.static_cast_int x :: xs, rd2)
  end.

(** The constructor [CompositePasswordGenerator()], given the state of
    the freshly opened random device. *)
Definition new_CompositePasswordGenerator (rd : random_device)
  : PasswordGenerator :=
  let (seed_data, rd') := generate state_size rd in
  CompositePasswordGenerator (seed seed_data) rd' [].

(** [main]: the value is what is written to standard output. *)
Definition main (rd : random_device) : outcome PasswordGenerator string :=
  let generator := new_CompositePasswordGenerator rd in
  bind (Add generator (SymbolGenerator 2)) (fun _ generator =>
  bind (Add generator (DigitGenerator 2)) (fun _ generator =>
  bind (Add generator (UpperLetterGenerator 2)) (fun _ generator =>
  bind (Add generator (LowerLetterGenerator 4)) (fun _ generator =>
  bind (Generate generator) (fun password generator =>
  Returns (password ++ newline) generator))))).

End Program.

(** ** Vocabulary of the statements *)

Section Vocabulary.

Context {R : StdRandom}.

(** A character class: an object whose dynamic type derives from
    [BasicPasswordGenerator]. *)
Definition is_class (g : PasswordGenerator) : Prop :=
  match g with
  | BasicPasswordGenerator _ _ => True
  | CompositePasswordGenerator _ _ _ => False
  end.

(** The alphabet and the requested length of a class. *)
Definition alphabet (g : PasswordGenerator) : string :=
  match AllowedChars g with
  | Value chars => chars
  | Raise _ => EmptyString
  end.

Definition requested (g : PasswordGenerator) : N :=
  match Length g with
  | Value len => len
  | Raise _ => 0%N
  end.

Definition nonempty_class (g : PasswordGenerator) : Prop :=
  is_class g /\ alphabet g <> EmptyString.

(** The distribution accepts the alphabet: the bound computed from its
    size is not below the lower bound [0]. *)
Definition accepted (chars : string) : Prop := 0 <= upper_bound chars.

Definition accepted_class (g : PasswordGenerator) : Prop :=
  is_class g /\ accepted (alphabet g).

(** The sum of the requested lengths. *)
Definition total_length (gens : list PasswordGenerator) : N :=
  fold_right N.add 0%N (map requested gens).

(** [block] is what class [g] contributes: [requested g] characters of
    its alphabet. *)
Definition contribution (g : PasswordGenerator) (block : list ascii) : Prop :=
  N.of_nat (List.length block) = requested g /\
  Forall (fun c => In c (list_ascii_of_string (alphabet g))) block.

(** What an observer of a call of [Generate] sees: the password and the
    engine of the composite afterwards. *)
Definition engine (g : PasswordGenerator) : option mt19937 :=
  match g with
  | BasicPasswordGenerator _ _ => None
  | CompositePasswordGenerator eng_ _ _ => Some eng_
  end.


(** The outcome is an exception. *)
Definition throws {S A : Type} (o : outcome S A) : Prop :=
  match o with
  | Throws _ _ => True
  | _ => False
  end.

Definition raises {A : Type} (o : thrown A) : Prop :=
  match o with
  | Raise _ => True
  | Value _ => False
  end.

(** A call of [Generate] on [c] returns a password that satisfies [P]. *)
Definition returns_password (c : PasswordGenerator) (P : string -> Prop)
  : Prop :=
  exists password c', Generate c = Returns password c' /\ P password.

Definition has_total_length (gens : list PasswordGenerator)
           (password : string) : Prop :=
  N.of_nat (String.length password) = total_length gens.

(** The password is, as a multiset, the blocks contributed by the
    classes, one block per class. *)
Definition composed_of (gens : list PasswordGenerator)
           (password : string) : Prop :=
  exists blocks : list (list ascii),
    Forall2 contribution gens blocks
    /\ Permutation (List.concat blocks) (list_ascii_of_string password)
    /\ list_sum (map (@List.length ascii) blocks) = String.length password.

Definition within_union (gens : list PasswordGenerator)
           (password : string) : Prop :=
  Forall (fun ch =>
            Exists (fun g => In ch (list_ascii_of_string (alphabet g))) gens)
         (list_ascii_of_string password).


(** The classes [main] adds, in the order it adds them. *)
Definition entry_point_classes : list PasswordGenerator :=
  [SymbolGenerator 2; DigitGenerator 2;
   UpperLetterGenerator 2; LowerLetterGenerator 4].

Definition generators (g : PasswordGenerator) : list PasswordGenerator :=
  match g with
  | BasicPasswordGenerator _ _ => []
  | CompositePasswordGenerator _ _ generators_ => generators_
  end.

End Vocabulary.

(** Position of a character in an alphabet, and the order of two
    characters in it. *)
Definition position (c : ascii) (s : string) : option nat :=
  String.index 0 (String c EmptyString) s.

Definition precedes (a b : ascii) (s : string) : bool :=
  match position a s, position b s with
  | Some i, Some j => (i <? j)%nat
  | _, _ => false
  end.

(** An alphabet of [2^31 + 1] characters. *)
Definition oversized : string := N.iter 2147483649 (String "a"%char) EmptyString.

(** ** A small instance of the library interface

    A linear congruential engine, a modular draw and an insertion
    shuffle: enough to run the program on concrete inputs. *)
Module Toy.

Definition step (eng : Z) : Z := (1103515245 * eng + 12345) mod 2 ^ 31.

Definition draw (a b : Z) (eng : Z) : Z * Z :=
  let eng' := step eng in
  (if a <=? b then a + eng' mod (b - a + 1) else a, eng')%Z.

Fixpoint shuffle_list (l : list ascii) (eng : Z) : list ascii * Z :=
  match l with
  | [] => ([], eng)
  | c :: l' =>
      let (r, eng1) := shuffle_list l' eng in
      let (j, eng2) := draw 0 (Z.of_nat (List.length r)) eng1 in
      ((firstn (Z.to_nat j) r ++ c :: skipn (Z.to_nat j) r)%list, eng2)
  end.

Definition shuffle_string (s : string) (eng : Z) : string * Z :=
  let (l, eng') := shuffle_list (list_ascii_of_string s) eng in
  (string_of_list_ascii l, eng').

Definition device (rd : Z) : Z * Z := (rd mod 2 ^ 32, rd + 1).

Definition seed_from (xs : list Z) : Z :=
  fold_left (fun acc x => (31 * acc + x) mod 2 ^ 31) xs 5489.

#[export] Instance random : StdRandom := {|
  mt19937 := Z;
  random_device := Z;
  uniform_int_distribution := draw;
  shuffle := shuffle_string;
  random_device_call := device;
  seed := seed_from
|}.

End Toy.

(** A composite over the small instance, with a fixed engine and device. *)
Definition toy_composite (gens : list (@PasswordGenerator Toy.random))
  : @PasswordGenerator Toy.random :=
  CompositePasswordGenerator (R := Toy.random) 42 7 gens.

(** ** Vocabulary of the further properties *)

(** Membership of a character in an alphabet, and the number of
    characters of a password that belong to an alphabet. *)
Definition in_alphabet (s : string) (c : ascii) : bool :=
  existsb (Ascii.eqb c) (list_ascii_of_string s).

Definition count_in (s : string) (password : string) : nat :=
  List.length (filter (in_alphabet s) (list_ascii_of_string password)).

Section Sequences.

Context {R : StdRandom}.

(** The state of the random device after [n] calls. *)
Definition device_after (n : nat) (rd : random_device) : random_device :=
  Nat.iter n (fun r => snd (random_device_call r)) rd.

(** The random device of a composite. *)
Definition device (g : PasswordGenerator) : option random_device :=
  match g with
  | BasicPasswordGenerator _ _ => None
  | CompositePasswordGenerator _ rd_ _ => Some rd_
  end.

(** A generator the loop of [Generate] passes: a class whose alphabet
    the distribution accepts. *)
Definition acceptable (g : PasswordGenerator) : bool :=
  match g with
  | BasicPasswordGenerator chars _ => (0 <=? upper_bound chars)%Z
  | CompositePasswordGenerator _ _ _ => false
  end.

(** The first generator, in the order of [generators_], that the loop
    does not pass. *)
Definition first_offender (gens : list PasswordGenerator)
  : option PasswordGenerator :=
  find (fun g => negb (acceptable g)) gens.

(** A run of calls [this.Add(g)], one for each [g] of [gens] in order,
    as [main] makes them. *)
Fixpoint add_all (this : PasswordGenerator) (gens : list PasswordGenerator)
  : outcome PasswordGenerator unit :=
  match gens with
  | [] => Returns tt this
  | g :: rest => bind (Add this g) (fun _ this' => add_all this' rest)
  end.

(** The alphabet of [g] lies inside [s]; it has no character in [s]. *)
Definition inside (s : string) (g : PasswordGenerator) : bool :=
  forallb (in_alphabet s) (list_ascii_of_string (alphabet g)).

Definition outside (s : string) (g : PasswordGenerator) : bool :=
  forallb (fun c => negb (in_alphabet s c))
          (list_ascii_of_string (alphabet g)).

End Sequences.

(** * Properties *)

(** ** Strings *)

Lemma length_append (s1 s2 : string) :
  String.length (s1 ++ s2) = (String.length s1 + String.length s2)%nat.
Proof.
  induction s1 as [|c s1 IH]; simpl.
  - reflexivity.
  - now rewrite IH.
Qed.

Lemma list_ascii_of_string_append (s1 s2 : string) :
  list_ascii_of_string (s1 ++ s2)
  = (list_ascii_of_string s1 ++ list_ascii_of_string s2)%list.
Proof.
  induction s1 as [|c s1 IH]; simpl.
  - reflexivity.
  - now rewrite IH.
Qed.

Lemma length_list_ascii_of_string (s : string) :
  List.length (list_ascii_of_string s) = String.length s.
Proof.
  induction s as [|c s IH]; simpl; congruence.
Qed.

Lemma list_ascii_of_string_nil (s : string) :
  list_ascii_of_string s = [] -> s = EmptyString.
Proof.
  destruct s; simpl; [reflexivity | discriminate].
Qed.

Lemma get_In (s : string) :
  forall n c, String.get n s = Some c -> In c (list_ascii_of_string s).
Proof.
  induction s as [|a s IH]; intros n c; simpl.
  - discriminate.
  - destruct n as [|n].
    + intros [= ->]. now left.
    + intros H. right. exact (IH n c H).
Qed.

Lemma get_Some (s : string) :
  forall n, (n < String.length s)%nat -> exists c, String.get n s = Some c.
Proof.
  induction s as [|a s IH]; intros n; simpl.
  - lia.
  - destruct n as [|n]; intros H.
    + now exists a.
    + apply IH. lia.
Qed.

Lemma subscript_within (chars : string) (pos : Z) :
  0 <= pos < Z.of_nat (String.length chars) ->
  exists c, subscript chars pos = Some c
            /\ In c (list_ascii_of_string chars).
Proof.
  intros Hpos. unfold subscript.
  destruct (Z.eqb_spec pos (Z.of_nat (String.length chars))) as [E|_]; [lia|].
  replace ((0 <=? pos) && (pos <? Z.of_nat (String.length chars)))%Z
    with true by (symmetry; apply andb_true_iff; split;
                  [apply Z.leb_le | apply Z.ltb_lt]; lia).
  destruct (get_Some chars (Z.to_nat pos)) as [c Hc]; [lia|].
  exists c. split; [exact Hc | exact (get_In _ _ _ Hc)].
Qed.

Lemma length_iter_String (c : ascii) (n : N) :
  String.length (N.iter n (String c) EmptyString) = N.to_nat n.
Proof.
  induction n as [|n IH] using N.peano_ind.
  - reflexivity.
  - rewrite N.iter_succ, N2Nat.inj_succ. simpl. now rewrite IH.
Qed.

Lemma length_oversized : Z.of_nat (String.length oversized) = 2 ^ 31 + 1.
Proof.
  unfold oversized. rewrite length_iter_String, N_nat_Z. reflexivity.
Qed.

(** ** The bound handed to the distribution *)

Lemma upper_bound_empty : upper_bound EmptyString = -1.
Proof. reflexivity. Qed.

Example upper_bound_digits : upper_bound "0123456789" = 9.
Proof. reflexivity. Qed.

Example subscript_last : subscript "AB" 1 = Some "B"%char.
Proof. reflexivity. Qed.

Example subscript_terminator : subscript "AB" 2 = Some zero.
Proof. reflexivity. Qed.

Example subscript_beyond : subscript "AB" 3 = None.
Proof. reflexivity. Qed.

Lemma upper_bound_range (chars : string) :
  - 2 ^ 31 <= upper_bound chars < 2 ^ 31.
Proof.
  unfold upper_bound, Int.static_cast_int, Int.int_modulus.
  pose proof (Z.mod_pos_bound
                (Int.size_t_sub (Z.of_nat (String.length chars)) 1 + 2 ^ 31)
                (2 ^ 32) ltac:(lia)).
  lia.
Qed.

(** Alphabets of [1] to [2^31] characters are passed on unchanged. *)
Lemma upper_bound_small (chars : string) :
  1 <= Z.of_nat (String.length chars) <= 2 ^ 31 ->
  upper_bound chars = Z.of_nat (String.length chars) - 1.
Proof.
  intros H. unfold upper_bound, Int.static_cast_int, Int.size_t_sub,
    Int.int_modulus, Int.size_t_modulus.
  rewrite (Z.mod_small (Z.of_nat (String.length chars) - 1)) by lia.
  rewrite Z.mod_small by lia. lia.
Qed.

Lemma accepted_small (chars : string) :
  1 <= Z.of_nat (String.length chars) <= 2 ^ 31 -> accepted chars.
Proof.
  intros H. unfold accepted. rewrite upper_bound_small by exact H. lia.
Qed.

(** An accepted bound stays inside the alphabet. *)
Lemma accepted_below_size (chars : string) :
  accepted chars -> upper_bound chars < Z.of_nat (String.length chars).
Proof.
  unfold accepted, upper_bound, Int.static_cast_int, Int.size_t_sub,
    Int.int_modulus, Int.size_t_modulus.
  set (len := Z.of_nat (String.length chars)).
  assert (0 <= len) by (subst len; lia).
  destruct (Z.eq_dec len 0) as [E|E].
  - rewrite E. intros Hacc. exfalso. revert Hacc. vm_compute. intros Hacc.
    now apply Hacc.
  - intros _.
    pose proof (Z.mod_le (len - 1) (2 ^ 64) ltac:(lia) ltac:(lia)).
    pose proof (Z.mod_pos_bound (len - 1) (2 ^ 64) ltac:(lia)).
    pose proof (Z.mod_le ((len - 1) mod 2 ^ 64 + 2 ^ 31) (2 ^ 32)
                         ltac:(lia) ltac:(lia)).
    lia.
Qed.

Lemma accepted_nonempty (chars : string) :
  accepted chars -> chars <> EmptyString.
Proof.
  intros Hacc ->. unfold accepted in Hacc. rewrite upper_bound_empty in Hacc.
  lia.
Qed.

Lemma oversized_nonempty : oversized <> EmptyString.
Proof.
  intros E. pose proof length_oversized as H. rewrite E in H. simpl in H. lia.
Qed.

Lemma oversized_rejected : upper_bound oversized = - 2 ^ 31.
Proof.
  unfold upper_bound. rewrite length_oversized. reflexivity.
Qed.

(** ** The loops of [Generate] *)

Section Loops.

Context {R : StdRandom}.

Lemma class_inv (g : PasswordGenerator) :
  is_class g ->
  exists chars len, g = BasicPasswordGenerator chars len.
Proof.
  destruct g as [chars len|eng rd gens]; simpl; intros H.
  - now exists chars, len.
  - destruct H.
Qed.

(** The outer loop over a concatenation runs the loop over the first
    part and continues with the second. *)
Lemma collect_app (l1 l2 : list PasswordGenerator) :
  forall password eng,
    collect (l1 ++ l2) password eng
    = bind (collect l1 password eng) (collect l2).
Proof.
  induction l1 as [|g l1 IH]; intros password eng; simpl.
  - reflexivity.
  - destruct (AllowedChars g) as [chars|what]; [|reflexivity].
    destruct (upper_bound chars <? 0)%Z; [reflexivity|].
    destruct (Length g) as [len|what]; [|reflexivity].
    destruct (append_chars chars (upper_bound chars) (N.to_nat len)
                           password eng) as [p e|what e|]; simpl.
    + apply IH.
    + reflexivity.
    + reflexivity.
Qed.

(** A class whose alphabet the distribution rejects stops the loop
    with undefined behaviour, whatever its requested length. *)
Lemma collect_rejected (chars : string) (len : N)
      (rest : list PasswordGenerator) (password : string) (eng : mt19937) :
  upper_bound chars < 0 ->
  collect (BasicPasswordGenerator chars len :: rest) password eng
  = Undefined.
Proof.
  intros H. simpl.
  destruct (Z.ltb_spec (upper_bound chars) 0) as [_|H']; [reflexivity|lia].
Qed.


(** A composite among the generators makes the loop throw at its turn. *)
Lemma collect_composite (eng_ : mt19937) (rd_ : random_device)
      (generators_ rest : list PasswordGenerator)
      (password : string) (eng : mt19937) :
  collect (CompositePasswordGenerator eng_ rd_ generators_ :: rest)
          password eng
  = Throws "not implemented" eng.
Proof. reflexivity. Qed.

Context {HR : StdRandomSpec R}.

(** The inner loop on an accepted alphabet: [n] characters of the
    alphabet are appended. *)
Lemma append_chars_returns (chars : string) :
  accepted chars ->
  forall (n : nat) (password : string) (eng : mt19937),
  exists password' eng' block,
    append_chars chars (upper_bound chars) n password eng
    = Returns password' eng'
    /\ list_ascii_of_string password'
       = (list_ascii_of_string password ++ block)%list
    /\ List.length block = n
    /\ Forall (fun c => In c (list_ascii_of_string chars)) block.
Proof.
  intros Hacc. pose proof (accepted_below_size chars Hacc) as Hlt.
  pose proof (upper_bound_range chars) as Hrange.
  induction n as [|n IH]; intros password eng; simpl.
  - exists password, eng, []. rewrite app_nil_r. repeat split. constructor.
  - pose proof (uniform_int_distribution_range 0 (upper_bound chars) eng Hacc)
      as Hk.
    destruct (uniform_int_distribution 0 (upper_bound chars) eng)
      as [k eng1]. simpl in Hk.
    assert (Hk' : Int.to_size_t k = k).
    { unfold Int.to_size_t, Int.size_t_modulus. apply Z.mod_small. lia. }
    rewrite Hk'.
    destruct (subscript_within chars k) as (c & Hc & Hin); [lia|].
    rewrite Hc.
    destruct (IH (push_back password c) eng1)
      as (password' & eng' & block & Hrun & Hpw & Hlen & Hall).
    exists password', eng', (c :: block). repeat split.
    + exact Hrun.
    + rewrite Hpw. unfold push_back.
      rewrite list_ascii_of_string_append. simpl.
      now rewrite <- app_assoc.
    + simpl. now rewrite Hlen.
    + now constructor.
Qed.

(** The outer loop on accepted classes: one block per class, in the
    order of the classes. *)
Lemma collect_returns (gens : list PasswordGenerator) :
  Forall accepted_class gens ->
  forall (password : string) (eng : mt19937),
  exists password' eng' blocks,
    collect gens password eng = Returns password' eng'
    /\ list_ascii_of_string password'
       = (list_ascii_of_string password ++ List.concat blocks)%list
    /\ Forall2 contribution gens blocks.
Proof.
  induction 1 as [|g gens [Hg Hacc] _ IH]; intros password eng.
  - exists password, eng, []. simpl. rewrite app_nil_r.
    repeat split. constructor.
  - destruct (class_inv g Hg) as (chars & len & ->).
    change (accepted chars) in Hacc. simpl.
    destruct (Z.ltb_spec (upper_bound chars) 0) as [H'|_];
      [unfold accepted in Hacc; lia|].
    destruct (append_chars_returns chars Hacc (N.to_nat len) password eng)
      as (p1 & e1 & block & Hrun & Hp1 & Hlen & Hall).
    rewrite Hrun. simpl.
    destruct (IH p1 e1) as (p2 & e2 & blocks & Hrest & Hp2 & Hblocks).
    exists p2, e2, (block :: blocks). repeat split.
    + exact Hrest.
    + rewrite Hp2, Hp1. simpl. now rewrite <- app_assoc.
    + constructor; [|exact Hblocks].
      split; simpl; [rewrite Hlen; apply N2Nat.id | exact Hall].
Qed.

(** On classes only the loop never throws. *)
Lemma collect_classes_no_throw (gens : list PasswordGenerator) :
  Forall is_class gens ->
  forall (password : string) (eng : mt19937) what eng',
    collect gens password eng <> Throws what eng'.
Proof.
  induction 1 as [|g gens Hg _ IH]; intros password eng what eng'.
  - discriminate.
  - destruct (class_inv g Hg) as (chars & len & ->). simpl.
    destruct (Z.ltb_spec (upper_bound chars) 0) as [H'|H']; [discriminate|].
    destruct (append_chars_returns chars H' (N.to_nat len) password eng)
      as (p1 & e1 & block & Hrun & _).
    rewrite Hrun. simpl. apply IH.
Qed.

(** On classes one of which has the empty alphabet the loop has
    undefined behaviour. *)
Lemma collect_empty_alphabet (gens : list PasswordGenerator) :
  Forall is_class gens ->
  Exists (fun g => alphabet g = EmptyString) gens ->
  forall (password : string) (eng : mt19937),
    collect gens password eng = Undefined.
Proof.
  induction 1 as [|g gens Hg _ IH]; intros Hex password eng.
  - inversion Hex.
  - destruct (class_inv g Hg) as (chars & len & ->).
    destruct (Z.ltb_spec (upper_bound chars) 0) as [H'|H'].
    + now apply collect_rejected.
    + simpl.
      destruct (Z.ltb_spec (upper_bound chars) 0) as [H''|_]; [lia|].
      destruct (append_chars_returns chars H' (N.to_nat len) password eng)
        as (p1 & e1 & block & Hrun & _).
      rewrite Hrun. simpl. apply IH.
      inversion Hex as [? ? Hhead|? ? Htail]; subst.
      * change (chars = EmptyString) in Hhead. subst chars.
        rewrite upper_bound_empty in H'. lia.
      * exact Htail.
Qed.

Lemma shuffle_empty (eng : mt19937) :
  fst (shuffle EmptyString eng) = EmptyString.
Proof.
  apply list_ascii_of_string_nil.
  apply Permutation_nil.
  exact (shuffle_Permutation EmptyString eng).
Qed.

End Loops.

(** ** The small instance meets the contract *)

Lemma Toy_draw_range (a b eng : Z) :
  a <= b -> a <= fst (Toy.draw a b eng) <= b.
Proof.
  intros H. unfold Toy.draw. simpl.
  destruct (Z.leb_spec a b) as [_|H']; [|lia].
  pose proof (Z.mod_pos_bound (Toy.step eng) (b - a + 1) ltac:(lia)).
  lia.
Qed.

Lemma Toy_shuffle_list_Permutation (l : list ascii) :
  forall eng, Permutation l (fst (Toy.shuffle_list l eng)).
Proof.
  induction l as [|c l IH]; intros eng; simpl.
  - constructor.
  - specialize (IH eng).
    destruct (Toy.shuffle_list l eng) as [r eng1]. simpl in IH.
    destruct (Toy.draw 0 (Z.of_nat (List.length r)) eng1) as [j eng2]. simpl.
    apply Permutation_cons_app.
    now rewrite firstn_skipn.
Qed.

#[export] Instance Toy_spec : StdRandomSpec Toy.random.
Proof.
  split.
  - exact Toy_draw_range.
  - intros s eng. simpl. unfold Toy.shuffle_string.
    pose proof (Toy_shuffle_list_Permutation (list_ascii_of_string s) eng) as H.
    destruct (Toy.shuffle_list (list_ascii_of_string s) eng) as [l eng'].
    simpl in *. now rewrite list_ascii_of_string_of_list_ascii.
Qed.

(** ** [Generate] as a whole *)

Section Generate.

Context {R : StdRandom}.

(** An oversized alphabet is not empty, and the distribution built
    for it has a negative upper bound. *)
Lemma Generate_oversized (len : N) (rest : list PasswordGenerator)
      (eng : mt19937) (rd : random_device) :
  Generate (CompositePasswordGenerator eng rd
              (BasicPasswordGenerator oversized len :: rest))
  = Undefined.
Proof.
  unfold Generate. rewrite collect_rejected; [reflexivity|].
  rewrite oversized_rejected. lia.
Qed.

Lemma oversized_nonempty_class (len : N) :
  nonempty_class (BasicPasswordGenerator oversized len).
Proof.
  split; [exact I | exact oversized_nonempty].
Qed.

Lemma contribution_total (gens : list PasswordGenerator)
      (blocks : list (list ascii)) :
  Forall2 contribution gens blocks ->
  N.of_nat (list_sum (map (@List.length ascii) blocks)) = total_length gens.
Proof.
  induction 1 as [|g block gens blocks [Hlen _] _ IH]; simpl.
  - reflexivity.
  - unfold total_length in *. simpl.
    rewrite Nat2N.inj_add, IH, Hlen. reflexivity.
Qed.

Lemma contribution_union (gens : list PasswordGenerator)
      (blocks : list (list ascii)) :
  Forall2 contribution gens blocks ->
  Forall (fun ch =>
            Exists (fun g => In ch (list_ascii_of_string (alphabet g))) gens)
         (List.concat blocks).
Proof.
  induction 1 as [|g block gens blocks [_ Hall] _ IH]; simpl.
  - constructor.
  - apply Forall_app. split.
    + eapply Forall_impl; [|exact Hall].
      intros ch Hch. now apply Exists_cons_hd.
    + eapply Forall_impl; [|exact IH].
      intros ch Hch. now apply Exists_cons_tl.
Qed.

Context {HR : StdRandomSpec R}.

(** On accepted classes [Generate] returns a permutation of the
    blocks drawn class by class, and changes only the engine. *)
Lemma Generate_returns (eng : mt19937) (rd : random_device)
      (gens : list PasswordGenerator) :
  Forall accepted_class gens ->
  exists password eng' blocks,
    Generate (CompositePasswordGenerator eng rd gens)
    = Returns password (CompositePasswordGenerator eng' rd gens)
    /\ Forall2 contribution gens blocks
    /\ Permutation (List.concat blocks) (list_ascii_of_string password).
Proof.
  intros Hgens.
  destruct (collect_returns gens Hgens EmptyString eng)
    as (p & e & blocks & Hrun & Hp & Hblocks).
  pose proof (shuffle_Permutation p e) as Hperm.
  unfold Generate. rewrite Hrun.
  destruct (shuffle p e) as [shuffled e']. simpl in Hperm.
  exists shuffled, e', blocks. repeat split.
  - exact Hblocks.
  - simpl in Hp. now rewrite <- Hp.
Qed.

Lemma Generate_composed (eng : mt19937) (rd : random_device)
      (gens : list PasswordGenerator) :
  Forall accepted_class gens ->
  returns_password (CompositePasswordGenerator eng rd gens)
                   (composed_of gens).
Proof.
  intros Hgens.
  destruct (Generate_returns eng rd gens Hgens)
    as (password & eng' & blocks & Hrun & Hblocks & Hperm).
  exists password, (CompositePasswordGenerator eng' rd gens).
  split; [exact Hrun|]. exists blocks. repeat split; try assumption.
  rewrite <- length_concat, (Permutation_length Hperm).
  apply length_list_ascii_of_string.
Qed.

Lemma composed_total_length (gens : list PasswordGenerator)
      (password : string) :
  composed_of gens password -> has_total_length gens password.
Proof.
  intros (blocks & Hblocks & _ & Hsum). unfold has_total_length.
  rewrite <- Hsum. now apply contribution_total.
Qed.

Lemma composed_within_union (gens : list PasswordGenerator)
      (password : string) :
  composed_of gens password -> within_union gens password.
Proof.
  intros (blocks & Hblocks & Hperm & _). unfold within_union.
  eapply Permutation_Forall; [exact Hperm|].
  now apply contribution_union.
Qed.

End Generate.

(** * The claims *)

Lemma entry_point_classes_accepted {R : StdRandom} :
  Forall accepted_class (@entry_point_classes R).
Proof.
  repeat constructor; apply accepted_small; simpl; lia.
Qed.

(** C1, amended.  For every sequence of character classes whose
    alphabets the index distribution accepts (the size minus one, cast to
    [int], is not negative: every alphabet of 1 to 2^31 characters),
    [Generate] returns a string whose length is the sum of the requested
    lengths; and [main], which adds 2 symbols, 2 digits, 2 uppercase and
    4 lowercase letters, writes a password of exactly 10 characters
    followed by a newline. *)
Theorem Generate_length {R : StdRandom} (HR : StdRandomSpec R) :
  (forall (eng : mt19937) (rd : random_device) (gens : list PasswordGenerator),
      Forall accepted_class gens ->
      returns_password (CompositePasswordGenerator eng rd gens)
                       (has_total_length gens))
  /\ (forall rd : random_device,
         exists password c',
           main rd = Returns (password ++ newline) c'
           /\ String.length password = 10%nat).
Proof.
  split.
  - intros eng rd gens Hgens.
    destruct (Generate_composed eng rd gens Hgens) as (pw & c' & Hrun & Hc).
    exists pw, c'. split; [exact Hrun | now apply composed_total_length].
  - intros rd. unfold main, new_CompositePasswordGenerator.
    destruct (generate state_size rd) as [seed_data rd'].
    cbn [Add bind app].
    destruct (Generate_composed (seed seed_data) rd' entry_point_classes
                                entry_point_classes_accepted)
      as (pw & c' & Hrun & Hc).
    unfold entry_point_classes in Hrun. rewrite Hrun. cbn [bind].
    exists pw, c'. split; [reflexivity|].
    apply composed_total_length in Hc. unfold has_total_length in Hc.
    change (total_length entry_point_classes) with 10%N in Hc.
    lia.
Qed.

Lemma Generate_length_witness :
  returns_password (toy_composite entry_point_classes)
                   (has_total_length (R := Toy.random) entry_point_classes)
  /\ exists password c',
      main (R := Toy.random) 7 = Returns (password ++ newline) c'
      /\ String.length password = 10%nat.
Proof.
  destruct (Generate_length Toy_spec) as [Hgen Hmain]. split.
  - apply Hgen. repeat constructor; apply accepted_small; simpl; lia.
  - apply Hmain.
Defined.

(** C1 as stated fails on a class with a non-empty alphabet of 2^31 + 1
    characters: the call has undefined behaviour and returns no string
    of the requested length. *)
Lemma Generate_length_oversized_alphabet :
  nonempty_class (BasicPasswordGenerator (R := Toy.random) oversized 1)
  /\ ~ returns_password
         (toy_composite [BasicPasswordGenerator oversized 1])
         (has_total_length
            [BasicPasswordGenerator (R := Toy.random) oversized 1]).
Proof.
  split.
  - apply oversized_nonempty_class.
  - intros (pw & c' & Hrun & _). unfold toy_composite in Hrun.
    rewrite Generate_oversized in Hrun. discriminate.
Qed.

(** C2, amended.  For every sequence of character classes whose
    alphabets are non-empty and accepted by the index distribution (1 to
    2^31 characters), the string [Generate] returns is a permutation of
    blocks, one per class in order, the block of a class holding exactly
    its requested number of characters, each of its alphabet; the block
    lengths sum to the length of the output.  The shuffle adds, drops
    and replaces nothing. *)
Theorem Generate_multiset {R : StdRandom} (HR : StdRandomSpec R)
        (eng : mt19937) (rd : random_device)
        (gens : list PasswordGenerator) :
  Forall accepted_class gens ->
  returns_password (CompositePasswordGenerator eng rd gens)
                   (composed_of gens).
Proof.
  intros Hgens. now apply Generate_composed.
Qed.

Lemma Generate_multiset_witness :
  returns_password (toy_composite entry_point_classes)
                   (composed_of (R := Toy.random) entry_point_classes).
Proof.
  apply (Generate_multiset Toy_spec 42 7 entry_point_classes).
  repeat constructor; apply accepted_small; simpl; lia.
Defined.

(** C2 as stated fails on a non-empty alphabet of 2^31 + 1 characters:
    no string made of the class's contribution is returned. *)
Lemma Generate_multiset_oversized_alphabet :
  Forall nonempty_class [BasicPasswordGenerator (R := Toy.random) oversized 3]
  /\ ~ returns_password
         (toy_composite [BasicPasswordGenerator oversized 3])
         (composed_of [BasicPasswordGenerator (R := Toy.random) oversized 3]).
Proof.
  split.
  - constructor; [apply oversized_nonempty_class | constructor].
  - intros (pw & c' & Hrun & _). unfold toy_composite in Hrun.
    rewrite Generate_oversized in Hrun. discriminate.
Qed.

(** C4, amended.  For every sequence of character classes whose
    alphabets are non-empty and accepted by the index distribution (1 to
    2^31 characters), every character of the string [Generate] returns
    belongs to the alphabet of one of the classes. *)
Theorem Generate_within_union {R : StdRandom} (HR : StdRandomSpec R)
        (eng : mt19937) (rd : random_device)
        (gens : list PasswordGenerator) :
  Forall accepted_class gens ->
  returns_password (CompositePasswordGenerator eng rd gens)
                   (within_union gens).
Proof.
  intros Hgens.
  destruct (Generate_composed eng rd gens Hgens) as (pw & c' & Hrun & Hc).
  exists pw, c'. split; [exact Hrun | now apply composed_within_union].
Qed.

Lemma Generate_within_union_witness :
  returns_password (toy_composite [BasicPasswordGenerator "AB" 3])
                   (within_union [BasicPasswordGenerator (R := Toy.random) "AB" 3]).
Proof.
  apply (Generate_within_union Toy_spec 42 7 [BasicPasswordGenerator "AB" 3]).
  repeat constructor. apply accepted_small. simpl. lia.
Defined.

(** C4 as stated fails on a non-empty alphabet of 2^31 + 1 characters:
    no string over the union of the alphabets is returned. *)
Lemma Generate_within_union_oversized_alphabet :
  Forall nonempty_class
         [BasicPasswordGenerator (R := Toy.random) oversized 1; DigitGenerator 2]
  /\ ~ returns_password
         (toy_composite [BasicPasswordGenerator oversized 1; DigitGenerator 2])
         (within_union
            [BasicPasswordGenerator (R := Toy.random) oversized 1;
             DigitGenerator 2]).
Proof.
  split.
  - repeat constructor; try apply oversized_nonempty; discriminate.
  - intros (pw & c' & Hrun & _). unfold toy_composite in Hrun.
    rewrite Generate_oversized in Hrun. discriminate.
Qed.

(** C3, amended.  [Generate] checks no alphabet and raises no
    configuration error: on a composite of character classes one of
    which has the empty alphabet, the index distribution is constructed
    with the bounds (0, -1), outside its precondition, and the call has
    undefined behaviour. *)
Theorem Generate_empty_alphabet {R : StdRandom} (HR : StdRandomSpec R)
        (eng : mt19937) (rd : random_device)
        (gens : list PasswordGenerator) :
  Forall is_class gens ->
  Exists (fun g => alphabet g = EmptyString) gens ->
  Generate (CompositePasswordGenerator eng rd gens) = Undefined.
Proof.
  intros Hclasses Hempty. unfold Generate.
  now rewrite collect_empty_alphabet.
Qed.

Lemma Generate_empty_alphabet_witness :
  Generate (toy_composite [DigitGenerator 2; BasicPasswordGenerator "" 1])
  = Undefined.
Proof.
  apply (Generate_empty_alphabet Toy_spec).
  - repeat constructor.
  - apply Exists_cons_tl, Exists_cons_hd. reflexivity.
Defined.

(** C3 as stated fails: with a class of empty alphabet the call does not
    end in an error, it is undefined. *)
Lemma Generate_empty_alphabet_no_error :
  Generate (toy_composite [BasicPasswordGenerator "" 1]) = Undefined
  /\ ~ throws (Generate (toy_composite [BasicPasswordGenerator "" 1])).
Proof.
  split.
  - reflexivity.
  - intros H. exact H.
Qed.

(** C5.  [Generate] on a composite to which no class was added returns
    the empty string; so it does on a freshly constructed composite. *)
Theorem Generate_no_classes {R : StdRandom} (HR : StdRandomSpec R) :
  (forall (eng : mt19937) (rd : random_device),
      exists eng',
        Generate (CompositePasswordGenerator eng rd [])
        = Returns EmptyString (CompositePasswordGenerator eng' rd []))
  /\ (forall rd : random_device,
         exists c',
           Generate (new_CompositePasswordGenerator rd)
           = Returns EmptyString c').
Proof.
  assert (Hempty : forall (eng : mt19937) (rd : random_device),
             exists eng',
               Generate (CompositePasswordGenerator eng rd [])
               = Returns EmptyString (CompositePasswordGenerator eng' rd [])).
  { intros eng rd. pose proof (shuffle_empty eng) as Hs.
    unfold Generate. simpl.
    destruct (shuffle EmptyString eng) as [shuffled eng']. simpl in Hs.
    subst shuffled. now exists eng'. }
  split; [exact Hempty|].
  intros rd. unfold new_CompositePasswordGenerator.
  destruct (generate state_size rd) as [seed_data rd'].
  destruct (Hempty (seed seed_data) rd') as [eng' Hrun].
  eexists. exact Hrun.
Qed.

Lemma Generate_no_classes_witness :
  exists eng',
    Generate (toy_composite [])
    = Returns EmptyString (CompositePasswordGenerator (R := Toy.random) eng' 7 []).
Proof.
  exact (proj1 (Generate_no_classes Toy_spec) 42 7).
Defined.

(** C6, amended.  The four leaf alphabets are byte for byte "0123456789",
    "!@#$%^&*()[]{}?<>", "ABCDEFGHIJKLMNOPQRSTUVXYWZ" and
    "abcdefghijklmnopqrstuvxywz"; in the two letter alphabets the order
    is X before Y before W. *)
Theorem leaf_alphabets {R : StdRandom} (len : N) :
  AllowedChars (DigitGenerator len) = Value "0123456789"
  /\ AllowedChars (SymbolGenerator len) = Value "!@#$%^&*()[]{}?<>"
  /\ AllowedChars (UpperLetterGenerator len)
     = Value "ABCDEFGHIJKLMNOPQRSTUVXYWZ"
  /\ AllowedChars (LowerLetterGenerator len)
     = Value "abcdefghijklmnopqrstuvxywz"
  /\ precedes "X" "Y" (alphabet (UpperLetterGenerator len)) = true
  /\ precedes "Y" "W" (alphabet (UpperLetterGenerator len)) = true
  /\ precedes "x" "y" (alphabet (LowerLetterGenerator len)) = true
  /\ precedes "y" "w" (alphabet (LowerLetterGenerator len)) = true.
Proof.
  repeat split.
Qed.

(** C6 as stated fails: W does not come before Y, neither in the
    uppercase alphabet nor in the lowercase one. *)
Lemma leaf_alphabets_W_after_Y :
  precedes "X" "W" (alphabet (UpperLetterGenerator (R := Toy.random) 2))
  && precedes "W" "Y" (alphabet (UpperLetterGenerator (R := Toy.random) 2))
  = false
  /\ precedes "x" "w" (alphabet (LowerLetterGenerator (R := Toy.random) 4))
     && precedes "w" "y" (alphabet (LowerLetterGenerator (R := Toy.random) 4))
     = false.
Proof.
  split; reflexivity.
Qed.

(** C7, amended.  On every leaf [Generate] and [Add] throw, and on every
    composite [Length] and [AllowedChars] throw, all with the error "not
    implemented".  A leaf's [Length] and [AllowedChars] and a
    composite's [Add] never throw, and a composite's [Generate] does not
    throw when the generators it holds are all leaves; it throws the
    same error when it meets a composite among them after leaves with
    accepted alphabets. *)
Theorem unsupported_operations {R : StdRandom} (HR : StdRandomSpec R) :
  (forall chars len g,
      Generate (BasicPasswordGenerator chars len)
      = Throws "not implemented" (BasicPasswordGenerator chars len)
      /\ Add (BasicPasswordGenerator chars len) g
         = Throws "not implemented" (BasicPasswordGenerator chars len))
  /\ (forall eng rd gens,
         Length (CompositePasswordGenerator eng rd gens)
         = Raise "not implemented"
         /\ AllowedChars (CompositePasswordGenerator eng rd gens)
            = Raise "not implemented")
  /\ (forall chars len,
         ~ raises (Length (BasicPasswordGenerator chars len))
         /\ ~ raises (AllowedChars (BasicPasswordGenerator chars len)))
  /\ (forall eng rd gens g,
         ~ throws (Add (CompositePasswordGenerator eng rd gens) g))
  /\ (forall eng rd gens,
         Forall is_class gens ->
         ~ throws (Generate (CompositePasswordGenerator eng rd gens)))
  /\ (forall eng rd before c after,
         Forall accepted_class before ->
         ~ is_class c ->
         exists eng',
           Generate (CompositePasswordGenerator eng rd (before ++ c :: after))
           = Throws "not implemented"
               (CompositePasswordGenerator eng' rd (before ++ c :: after))).
Proof.
  split; [|split; [|split; [|split; [|split]]]].
  - intros chars len g. split; reflexivity.
  - intros eng rd gens. split; reflexivity.
  - intros chars len. split; intros H; exact H.
  - intros eng rd gens g H. exact H.
  - intros eng rd gens Hclasses Hthrows. unfold Generate in Hthrows.
    destruct (collect gens EmptyString eng) as [p e|what e|] eqn:Hrun.
    + destruct (shuffle p e). exact Hthrows.
    + exact (collect_classes_no_throw gens Hclasses _ _ _ _ Hrun).
    + exact Hthrows.
  - intros eng rd before c after Hbefore Hc.
    destruct (collect_returns before Hbefore EmptyString eng)
      as (p & e & blocks & Hrun & _).
    exists e. unfold Generate. rewrite collect_app, Hrun. cbn [bind].
    destruct c as [chars len|eng_ rd_ gens_].
    + exfalso. apply Hc. exact I.
    + rewrite collect_composite. reflexivity.
Qed.

Lemma unsupported_operations_witness :
  ~ throws (Generate (toy_composite entry_point_classes))
  /\ exists eng',
      Generate (toy_composite ([DigitGenerator 1] ++ toy_composite [] :: []))
      = Throws "not implemented"
          (CompositePasswordGenerator (R := Toy.random) eng' 7
             ([DigitGenerator 1] ++ toy_composite [] :: [])).
Proof.
  destruct (unsupported_operations Toy_spec)
    as (_ & _ & _ & _ & Hleaves & Hnested).
  split.
  - apply Hleaves. repeat constructor.
  - apply Hnested.
    + repeat constructor. apply accepted_small. simpl. lia.
    + intros H. exact H.
Defined.

(** C7 as stated fails: [Generate], an operation a composite does
    implement, throws on a composite that holds a composite. *)
Lemma nested_composite_Generate_throws :
  Generate (toy_composite [toy_composite []])
  = Throws "not implemented" (toy_composite [toy_composite []])
  /\ throws (Generate (toy_composite [toy_composite []])).
Proof.
  split.
  - reflexivity.
  - exact I.
Qed.





(** C9.  [Add] on a composite always succeeds: the generator becomes the
    new last element, the sequence grows by exactly one, the generators
    added before keep their places, and the engine and the random device
    are unchanged. *)
Theorem Add_appends {R : StdRandom} (eng : mt19937) (rd : random_device)
        (gens : list PasswordGenerator) (g : PasswordGenerator) :
  Add (CompositePasswordGenerator eng rd gens) g
  = Returns tt (CompositePasswordGenerator eng rd (gens ++ [g]))
  /\ List.length (gens ++ [g]) = S (List.length gens)
  /\ firstn (List.length gens) (gens ++ [g]) = gens
  /\ nth_error (gens ++ [g]) (List.length gens) = Some g.
Proof.
  repeat split.
  - rewrite length_app. simpl. lia.
  - rewrite firstn_app, Nat.sub_diag, firstn_all. simpl. apply app_nil_r.
  - rewrite nth_error_app2 by lia. now rewrite Nat.sub_diag.
Qed.

(** C10, amended.  On classes whose alphabets the index distribution
    accepts, [Generate] depends on the generators and on the engine
    state and on nothing else: two objects with the same generators in
    the same order and the same engine state both return, with the same
    password, composed of the contributions of the classes, and leave
    their engines in the same state, whatever their random devices,
    which [Generate] leaves as they were. *)
Theorem Generate_deterministic {R : StdRandom} (HR : StdRandomSpec R)
        (c1 c2 : PasswordGenerator) (eng : mt19937) :
  engine c1 = Some eng ->
  engine c2 = Some eng ->
  generators c1 = generators c2 ->
  Forall accepted_class (generators c1) ->
  exists password eng' c1' c2',
    Generate c1 = Returns password c1'
    /\ Generate c2 = Returns password c2'
    /\ engine c1' = Some eng' /\ engine c2' = Some eng'
    /\ device c1' = device c1 /\ device c2' = device c2
    /\ generators c1' = generators c1 /\ generators c2' = generators c2
    /\ composed_of (generators c1) password.
Proof.
  destruct c1 as [chars1 len1|eng1 rd1 gens1];
    destruct c2 as [chars2 len2|eng2 rd2 gens2];
    cbn [engine generators device]; intros Heng1 Heng2 Hgens Hacc;
    try discriminate.
  injection Heng1 as ->. injection Heng2 as ->. subst gens2.
  destruct (collect_returns gens1 Hacc EmptyString eng)
    as (p & e & blocks & Hrun & Hp & Hblocks).
  pose proof (shuffle_Permutation p e) as Hperm.
  unfold Generate. rewrite Hrun.
  destruct (shuffle p e) as [shuffled eng'] eqn:Hshuffle. cbn [fst] in Hperm.
  exists shuffled, eng',
    (CompositePasswordGenerator eng' rd1 gens1),
    (CompositePasswordGenerator eng' rd2 gens1).
  repeat split.
  exists blocks. simpl in Hp. rewrite Hp in Hperm.
  repeat split; try assumption.
  rewrite <- length_concat, (Permutation_length Hperm).
  apply length_list_ascii_of_string.
Qed.

Lemma Generate_deterministic_witness :
  exists password eng' c1' c2',
    Generate (CompositePasswordGenerator (R := Toy.random) 42 7
                entry_point_classes)
    = Returns password c1'
    /\ Generate (CompositePasswordGenerator (R := Toy.random) 42 2026
                   entry_point_classes)
       = Returns password c2'
    /\ engine c1' = Some eng' /\ engine c2' = Some eng'
    /\ device c1' = Some 7 /\ device c2' = Some 2026
    /\ generators c1' = entry_point_classes
    /\ generators c2' = entry_point_classes
    /\ composed_of (R := Toy.random) entry_point_classes password.
Proof.
  apply (Generate_deterministic Toy_spec
           (CompositePasswordGenerator (R := Toy.random) 42 7
              entry_point_classes)
           (CompositePasswordGenerator (R := Toy.random) 42 2026
              entry_point_classes)
           42).
  - reflexivity.
  - reflexivity.
  - reflexivity.
  - repeat constructor; apply accepted_small; simpl; lia.
Defined.

(** C10 as stated fails: two composites with the same engine state and
    the same single class, of a non-empty alphabet of 2^31 + 1
    characters or of the empty alphabet, return no password: both calls
    have undefined behaviour. *)
Lemma Generate_deterministic_rejected_alphabet :
  (generators (toy_composite [BasicPasswordGenerator oversized 1])
   = generators (CompositePasswordGenerator (R := Toy.random) 42 2026
                   [BasicPasswordGenerator oversized 1])
   /\ engine (toy_composite [BasicPasswordGenerator oversized 1])
      = engine (CompositePasswordGenerator (R := Toy.random) 42 2026
                  [BasicPasswordGenerator oversized 1])
   /\ ~ exists password c1' c2',
         Generate (toy_composite [BasicPasswordGenerator oversized 1])
         = Returns password c1'
         /\ Generate (CompositePasswordGenerator (R := Toy.random) 42 2026
                        [BasicPasswordGenerator oversized 1])
            = Returns password c2'
         /\ engine c1' = engine c2')
  /\ ~ exists password c1' c2',
        Generate (toy_composite [BasicPasswordGenerator "" 1])
        = Returns password c1'
        /\ Generate (CompositePasswordGenerator (R := Toy.random) 42 2026
                       [BasicPasswordGenerator "" 1])
           = Returns password c2'
        /\ engine c1' = engine c2'.
Proof.
  split; [split; [reflexivity|split; [reflexivity|]]|].
  - intros (pw & c1' & c2' & Hrun & _). unfold toy_composite in Hrun.
    rewrite Generate_oversized in Hrun. discriminate.
  - intros (pw & c1' & c2' & Hrun & _). discriminate.
Qed.

(** * Further properties of the code *)

(** ** The constructor *)

Lemma device_after_succ {R : StdRandom} (n : nat) (rd : random_device) :
  device_after (S n) rd = device_after n (snd (random_device_call rd)).
Proof.
  unfold device_after. apply Nat.iter_succ_r.
Qed.

Lemma generate_spec {R : StdRandom} (n : nat) :
  forall rd : random_device,
    fst (generate n rd)
    = map (fun k => Int.static_cast_int
                      (fst (random_device_call (device_after k rd))))
          (seq 0 n)
    /\ snd (generate n rd) = device_after n rd.
Proof.
  induction n as [|n IH]; intros rd.
  - split; reflexivity.
  - cbn [generate].
    destruct (random_device_call rd) as [x rd1] eqn:Hcall.
    destruct (IH rd1) as [Hdata Hdev].
    destruct (generate n rd1) as [xs rd2]. cbn [fst snd] in *.
    split.
    + cbn [seq map]. f_equal.
      * change (device_after 0 rd) with rd. now rewrite Hcall.
      * rewrite Hdata, <- seq_shift, map_map.
        apply map_ext. intros k. rewrite device_after_succ, Hcall.
        reflexivity.
    + rewrite device_after_succ, Hcall. exact Hdev.
Qed.

Lemma static_cast_int_range (x : Z) :
  - 2 ^ 31 <= Int.static_cast_int x < 2 ^ 31.
Proof.
  unfold Int.static_cast_int, Int.int_modulus.
  pose proof (Z.mod_pos_bound (x + 2 ^ 31) (2 ^ 32) ltac:(lia)). lia.
Qed.

(** X1.  The constructor calls the random device exactly
    [state_size] = 624 times, seeds the engine with the 624 words drawn,
    in the order drawn and each converted to [int], and starts with no
    generators. *)
Theorem constructor_seeds {R : StdRandom} (rd : random_device) :
  exists seed_data : list Z,
    new_CompositePasswordGenerator rd
    = CompositePasswordGenerator (seed seed_data)
                                 (device_after state_size rd) []
    /\ List.length seed_data = 624%nat
    /\ Forall (fun x => - 2 ^ 31 <= x < 2 ^ 31) seed_data
    /\ forall k, (k < 624)%nat ->
         nth_error seed_data k
         = Some (Int.static_cast_int
                   (fst (random_device_call (device_after k rd)))).
Proof.
  unfold new_CompositePasswordGenerator.
  destruct (generate_spec state_size rd) as [Hdata Hdev].
  destruct (generate state_size rd) as [seed_data rd'].
  cbn [fst snd] in Hdata, Hdev. subst rd'.
  exists seed_data. split; [reflexivity|].
  rewrite Hdata. split; [|split].
  - rewrite length_map, length_seq. reflexivity.
  - apply Forall_map, Forall_forall. intros k _.
    apply static_cast_int_range.
  - intros k Hk.
    rewrite nth_error_map, nth_error_seq.
    destruct (Nat.ltb_spec k state_size) as [_|Hge].
    + reflexivity.
    + unfold state_size in Hge. lia.
Qed.

(** ** The bound of the index distribution *)

(** X2.  What [static_cast<int>(chars.length() - 1)] is for each size
    of alphabet: for 1 to 2^31 characters it is the last index; for more
    than 2^31 and at most 2^32 characters it is negative; and whenever
    it is not negative (for a size below 2^64) the alphabet is not empty
    and the bound is the last index reduced modulo 2^32, hence below the
    size. *)
Theorem upper_bound_ranges (chars : string) :
  (1 <= Z.of_nat (String.length chars) <= 2 ^ 31 ->
   upper_bound chars = Z.of_nat (String.length chars) - 1)
  /\ (2 ^ 31 < Z.of_nat (String.length chars) <= 2 ^ 32 ->
      upper_bound chars < 0)
  /\ (Z.of_nat (String.length chars) < 2 ^ 64 ->
      0 <= upper_bound chars ->
      1 <= Z.of_nat (String.length chars)
      /\ upper_bound chars = (Z.of_nat (String.length chars) - 1) mod 2 ^ 32
      /\ upper_bound chars < Z.of_nat (String.length chars)).
Proof.
  split; [exact (upper_bound_small chars)|].
  unfold upper_bound, Int.static_cast_int, Int.size_t_sub,
    Int.int_modulus, Int.size_t_modulus.
  set (len := Z.of_nat (String.length chars)).
  assert (Hlen : 0 <= len) by (subst len; lia).
  change (2 ^ 31) with 2147483648.
  change (2 ^ 32) with 4294967296.
  change (2 ^ 64) with 18446744073709551616.
  split.
  - intros H. rewrite (Z.mod_small (len - 1)) by lia.
    replace (len - 1 + 2147483648)
      with (len - 1 - 2147483648 + 1 * 4294967296) by lia.
    rewrite Z.mod_add by lia. rewrite Z.mod_small by lia. lia.
  - intros Hsize Hacc.
    destruct (Z.eq_dec len 0) as [E|E].
    + exfalso. rewrite E in Hacc. revert Hacc. vm_compute. intros Hacc.
      now apply Hacc.
    + rewrite (Z.mod_small (len - 1)) in Hacc |- * by lia.
      pose proof (Z.mod_pos_bound (len - 1) 4294967296 ltac:(lia)) as Hr.
      pose proof (Z.mod_le (len - 1) 4294967296 ltac:(lia) ltac:(lia)) as Hle.
      rewrite <- (Z.add_mod_idemp_l (len - 1)) in Hacc |- * by lia.
      destruct (Z_lt_le_dec ((len - 1) mod 4294967296) 2147483648) as [Hlo|Hhi].
      * rewrite Z.mod_small in Hacc |- * by lia. lia.
      * exfalso.
        replace ((len - 1) mod 4294967296 + 2147483648)
          with ((len - 1) mod 4294967296 - 2147483648 + 1 * 4294967296)
          in Hacc by lia.
        rewrite Z.mod_add in Hacc by lia.
        rewrite Z.mod_small in Hacc by lia. lia.
Qed.

Lemma upper_bound_ranges_witness :
  upper_bound "0123456789" = Z.of_nat (String.length "0123456789") - 1
  /\ upper_bound oversized < 0
  /\ (1 <= Z.of_nat (String.length "AB")
      /\ upper_bound "AB" = (Z.of_nat (String.length "AB") - 1) mod 2 ^ 32
      /\ upper_bound "AB" < Z.of_nat (String.length "AB")).
Proof.
  split; [|split].
  - apply (proj1 (upper_bound_ranges "0123456789")). simpl. lia.
  - apply (proj1 (proj2 (upper_bound_ranges oversized))).
    rewrite length_oversized. lia.
  - apply (proj2 (proj2 (upper_bound_ranges "AB"))).
    + simpl. lia.
    + vm_compute. discriminate.
Defined.

(** ** Runs of [Add] *)

Lemma add_all_composite {R : StdRandom} (gens : list PasswordGenerator) :
  forall (eng : mt19937) (rd : random_device)
         (gens0 : list PasswordGenerator),
    add_all (CompositePasswordGenerator eng rd gens0) gens
    = Returns tt (CompositePasswordGenerator eng rd (gens0 ++ gens)).
Proof.
  induction gens as [|g gens IH]; intros eng rd gens0; cbn [add_all Add bind].
  - now rewrite app_nil_r.
  - rewrite IH, <- app_assoc. reflexivity.
Qed.

(** X3.  Calls of [Add] compose: adding the generators of a list one
    after the other to a composite that holds [gens0] leaves a composite
    that holds [gens0] followed by the list, in order, with the engine
    and the random device untouched; on a leaf the first call throws and
    the remaining calls are not made.  [main] is such a run on a fresh
    composite, followed by [Generate] and the output of the line; and a
    run followed by [Generate] returns a password composed of the
    contributions of the old and the new classes, when the distribution
    accepts their alphabets. *)
Theorem Add_sequence {R : StdRandom} (HR : StdRandomSpec R) :
  (forall eng rd gens0 gens,
      add_all (CompositePasswordGenerator eng rd gens0) gens
      = Returns tt (CompositePasswordGenerator eng rd (gens0 ++ gens)))
  /\ (forall chars len g rest,
         add_all (BasicPasswordGenerator chars len) (g :: rest)
         = Throws "not implemented" (BasicPasswordGenerator chars len))
  /\ (forall rd,
         main rd
         = bind (add_all (new_CompositePasswordGenerator rd)
                         entry_point_classes)
                (fun _ generator =>
                   bind (Generate generator)
                        (fun password generator' =>
                           Returns (password ++ newline) generator')))
  /\ (forall eng rd gens0 gens,
         Forall accepted_class (gens0 ++ gens) ->
         exists password eng',
           bind (add_all (CompositePasswordGenerator eng rd gens0) gens)
                (fun _ generator => Generate generator)
           = Returns password
               (CompositePasswordGenerator eng' rd (gens0 ++ gens))
           /\ composed_of (gens0 ++ gens) password).
Proof.
  split; [|split; [|split]].
  - intros eng rd gens0 gens. apply add_all_composite.
  - reflexivity.
  - intros rd. unfold main, new_CompositePasswordGenerator.
    destruct (generate state_size rd) as [seed_data rd']. reflexivity.
  - intros eng rd gens0 gens Hacc.
    rewrite add_all_composite. cbn [bind].
    destruct (Generate_returns eng rd (gens0 ++ gens) Hacc)
      as (pw & eng' & blocks & Hrun & Hblocks & Hperm).
    exists pw, eng'. split; [exact Hrun|].
    exists blocks. repeat split; try assumption.
    rewrite <- length_concat, (Permutation_length Hperm).
    apply length_list_ascii_of_string.
Qed.

Lemma Add_sequence_witness :
  exists password eng',
    bind (add_all (toy_composite [DigitGenerator 2])
                  [UpperLetterGenerator 1; LowerLetterGenerator 3])
         (fun _ generator => Generate generator)
    = Returns password
        (CompositePasswordGenerator (R := Toy.random) eng' 7
           ([DigitGenerator 2]
              ++ [UpperLetterGenerator 1; LowerLetterGenerator 3]))
    /\ composed_of ([DigitGenerator (R := Toy.random) 2]
                      ++ [UpperLetterGenerator 1; LowerLetterGenerator 3])
                   password.
Proof.
  apply (proj2 (proj2 (proj2 (Add_sequence Toy_spec))) 42 7
               [DigitGenerator 2]
               [UpperLetterGenerator 1; LowerLetterGenerator 3]).
  repeat constructor; apply accepted_small; simpl; lia.
Defined.

(** ** Counting the characters of a class *)

Lemma Permutation_filter_length {A : Type} (f : A -> bool) (l l' : list A) :
  Permutation l l' ->
  List.length (filter f l) = List.length (filter f l').
Proof.
  induction 1 as [|x l l' _ IH|x y l|l l' l'' _ IH1 _ IH2]; simpl.
  - reflexivity.
  - destruct (f x); simpl; congruence.
  - destruct (f x), (f y); reflexivity.
  - congruence.
Qed.

Lemma in_alphabet_In (s : string) (c : ascii) :
  In c (list_ascii_of_string s) -> in_alphabet s c = true.
Proof.
  intros H. unfold in_alphabet. apply existsb_exists.
  exists c. split; [exact H | apply Ascii.eqb_refl].
Qed.

Lemma filter_all {A : Type} (f : A -> bool) (l : list A) :
  Forall (fun x => f x = true) l -> filter f l = l.
Proof.
  induction 1 as [|x l Hx _ IH]; simpl.
  - reflexivity.
  - now rewrite Hx, IH.
Qed.

Lemma filter_none {A : Type} (f : A -> bool) (l : list A) :
  Forall (fun x => f x = false) l -> filter f l = [].
Proof.
  induction 1 as [|x l Hx _ IH]; simpl.
  - reflexivity.
  - now rewrite Hx.
Qed.

Lemma filter_concat_member {A : Type} (f : A -> bool)
      (blocks : list (list A)) (block : list A) :
  In block blocks ->
  (List.length (filter f block)
   <= List.length (filter f (List.concat blocks)))%nat.
Proof.
  induction blocks as [|b blocks IH]; simpl; intros Hin.
  - destruct Hin.
  - rewrite filter_app, length_app. destruct Hin as [->|Hin].
    + lia.
    + specialize (IH Hin). lia.
Qed.

Lemma contribution_member {R : StdRandom}
      (gens : list PasswordGenerator) (blocks : list (list ascii)) :
  Forall2 contribution gens blocks ->
  forall g, In g gens ->
    exists block, In block blocks /\ contribution g block.
Proof.
  induction 1 as [|g0 b gens blocks Hc _ IH]; intros g Hin.
  - destruct Hin.
  - destruct Hin as [->|Hin].
    + exists b. split; [now left | exact Hc].
    + destruct (IH g Hin) as (block & Hb & Hcb).
      exists block. split; [now right | exact Hcb].
Qed.

(** X4.  The password meets the request of every class: for every
    sequence of classes whose alphabets the distribution accepts, the
    string [Generate] returns holds, for each class, at least as many
    characters of that class's alphabet as the class requested. *)
Theorem Generate_meets_requests {R : StdRandom} (HR : StdRandomSpec R)
        (eng : mt19937) (rd : random_device)
        (gens : list PasswordGenerator) :
  Forall accepted_class gens ->
  returns_password
    (CompositePasswordGenerator eng rd gens)
    (fun password =>
       Forall (fun g =>
                 (N.to_nat (requested g)
                  <= count_in (alphabet g) password)%nat)
              gens).
Proof.
  intros Hgens.
  destruct (Generate_returns eng rd gens Hgens)
    as (pw & eng' & blocks & Hrun & Hblocks & Hperm).
  exists pw, (CompositePasswordGenerator eng' rd gens).
  split; [exact Hrun|].
  apply Forall_forall. intros g Hg.
  destruct (contribution_member gens blocks Hblocks g Hg)
    as (block & Hin & Hlen & Hall).
  unfold count_in.
  rewrite <- (Permutation_filter_length (in_alphabet (alphabet g)) _ _ Hperm).
  pose proof (filter_concat_member (in_alphabet (alphabet g)) blocks block Hin)
    as Hle.
  rewrite (filter_all (in_alphabet (alphabet g)) block) in Hle.
  - rewrite <- Hlen, Nat2N.id. exact Hle.
  - eapply Forall_impl; [|exact Hall].
    intros c Hc. now apply in_alphabet_In.
Qed.

Lemma Generate_meets_requests_witness :
  returns_password
    (toy_composite [DigitGenerator 3; BasicPasswordGenerator "AB" 2])
    (fun password =>
       Forall (fun g =>
                 (N.to_nat (requested g)
                  <= count_in (alphabet g) password)%nat)
              [DigitGenerator (R := Toy.random) 3;
               BasicPasswordGenerator "AB" 2]).
Proof.
  apply (Generate_meets_requests Toy_spec 42 7
           [DigitGenerator 3; BasicPasswordGenerator "AB" 2]).
  repeat constructor; apply accepted_small; simpl; lia.
Defined.

Lemma inside_block {R : StdRandom} (s : string) (g : PasswordGenerator)
      (block : list ascii) :
  inside s g = true ->
  Forall (fun c => In c (list_ascii_of_string (alphabet g))) block ->
  filter (in_alphabet s) block = block.
Proof.
  intros Hin Hall. apply filter_all.
  eapply Forall_impl; [|exact Hall].
  intros c Hc. unfold inside in Hin.
  rewrite forallb_forall in Hin. now apply Hin.
Qed.

Lemma outside_block {R : StdRandom} (s : string) (g : PasswordGenerator)
      (block : list ascii) :
  outside s g = true ->
  Forall (fun c => In c (list_ascii_of_string (alphabet g))) block ->
  filter (in_alphabet s) block = [].
Proof.
  intros Hout Hall. apply filter_none.
  eapply Forall_impl; [|exact Hall].
  intros c Hc. unfold outside in Hout.
  rewrite forallb_forall in Hout. apply negb_true_iff. now apply Hout.
Qed.

Lemma exact_count_blocks {R : StdRandom} (s : string)
      (gens : list PasswordGenerator) (blocks : list (list ascii)) :
  Forall2 contribution gens blocks ->
  Forall (fun g => inside s g = true \/ outside s g = true) gens ->
  N.of_nat (List.length (filter (in_alphabet s) (List.concat blocks)))
  = total_length (filter (inside s) gens).
Proof.
  induction 1 as [|g b gens blocks [Hlen Hall] _ IH]; intros Hside.
  - reflexivity.
  - inversion Hside as [|? ? Hg Hrest]; subst.
    cbn [List.concat filter]. rewrite filter_app, length_app, Nat2N.inj_add.
    rewrite (IH Hrest).
    destruct (inside s g) eqn:Hin.
    + rewrite (inside_block s g b Hin Hall), Hlen. reflexivity.
    + destruct Hg as [Hg|Hg]; [discriminate|].
      rewrite (outside_block s g b Hg Hall). reflexivity.
Qed.

(** X5.  When the alphabet of every class lies inside a set [s] of
    characters or has no character in it, the password [Generate]
    returns holds exactly as many characters of [s] as the classes
    inside [s] requested together: the other classes add none. *)
Theorem Generate_exact_count {R : StdRandom} (HR : StdRandomSpec R)
        (eng : mt19937) (rd : random_device)
        (gens : list PasswordGenerator) (s : string) :
  Forall accepted_class gens ->
  Forall (fun g => inside s g = true \/ outside s g = true) gens ->
  returns_password
    (CompositePasswordGenerator eng rd gens)
    (fun password =>
       N.of_nat (count_in s password)
       = total_length (filter (inside s) gens)).
Proof.
  intros Hgens Hside.
  destruct (Generate_returns eng rd gens Hgens)
    as (pw & eng' & blocks & Hrun & Hblocks & Hperm).
  exists pw, (CompositePasswordGenerator eng' rd gens).
  split; [exact Hrun|].
  unfold count_in.
  rewrite <- (Permutation_filter_length (in_alphabet s) _ _ Hperm).
  now apply exact_count_blocks.
Qed.

Lemma Generate_exact_count_witness :
  returns_password
    (toy_composite [DigitGenerator 3; LowerLetterGenerator 2; DigitGenerator 1])
    (fun password =>
       N.of_nat (count_in "0123456789" password)
       = total_length
           (filter (inside "0123456789")
                   [DigitGenerator (R := Toy.random) 3;
                    LowerLetterGenerator 2; DigitGenerator 1])).
Proof.
  apply (Generate_exact_count Toy_spec 42 7
           [DigitGenerator 3; LowerLetterGenerator 2; DigitGenerator 1]
           "0123456789").
  - repeat constructor; apply accepted_small; simpl; lia.
  - repeat (apply Forall_cons || apply Forall_nil); vm_compute; auto.
Defined.

(** ** The line [main] writes *)

(** X6.  Whatever the random device yields, [main] writes one line: a
    password with exactly 2 symbols, 2 digits, 2 uppercase letters and
    4 lowercase letters, in some order, followed by a newline; the
    generator then holds the four classes in the order they were added
    and its random device has been called 624 times. *)
Theorem main_line {R : StdRandom} (HR : StdRandomSpec R)
        (rd : random_device) :
  exists password generator,
    main rd = Returns (password ++ newline) generator
    /\ count_in "!@#$%^&*()[]{}?<>" password = 2%nat
    /\ count_in "0123456789" password = 2%nat
    /\ count_in "ABCDEFGHIJKLMNOPQRSTUVXYWZ" password = 2%nat
    /\ count_in "abcdefghijklmnopqrstuvxywz" password = 4%nat
    /\ generators generator = entry_point_classes
    /\ device generator = Some (device_after state_size rd).
Proof.
  unfold main, new_CompositePasswordGenerator.
  pose proof (proj2 (generate_spec state_size rd)) as Hdev.
  destruct (generate state_size rd) as [seed_data rd'].
  cbn [snd] in Hdev. subst rd'. cbn [Add bind app].
  destruct (Generate_returns (seed seed_data) (device_after state_size rd)
                             entry_point_classes entry_point_classes_accepted)
    as (pw & eng' & blocks & Hrun & Hblocks & Hperm).
  unfold entry_point_classes in Hrun. rewrite Hrun. cbn [bind].
  exists pw, (CompositePasswordGenerator eng' (device_after state_size rd)
                entry_point_classes).
  split; [reflexivity|].
  assert (Hcount : forall s,
             Forall (fun g => inside s g = true \/ outside s g = true)
                    (@entry_point_classes R) ->
             N.of_nat (count_in s pw)
             = total_length (filter (inside s) entry_point_classes)).
  { intros s Hside. unfold count_in.
    rewrite <- (Permutation_filter_length (in_alphabet s) _ _ Hperm).
    now apply exact_count_blocks. }
  repeat split.
  - apply Nat2N.inj. rewrite Hcount; [reflexivity|].
    repeat (apply Forall_cons || apply Forall_nil); vm_compute; auto.
  - apply Nat2N.inj. rewrite Hcount; [reflexivity|].
    repeat (apply Forall_cons || apply Forall_nil); vm_compute; auto.
  - apply Nat2N.inj. rewrite Hcount; [reflexivity|].
    repeat (apply Forall_cons || apply Forall_nil); vm_compute; auto.
  - apply Nat2N.inj. rewrite Hcount; [reflexivity|].
    repeat (apply Forall_cons || apply Forall_nil); vm_compute; auto.
Qed.

Lemma main_line_witness :
  exists password generator,
    main (R := Toy.random) 7 = Returns (password ++ newline) generator
    /\ count_in "!@#$%^&*()[]{}?<>" password = 2%nat
    /\ count_in "0123456789" password = 2%nat
    /\ count_in "ABCDEFGHIJKLMNOPQRSTUVXYWZ" password = 2%nat
    /\ count_in "abcdefghijklmnopqrstuvxywz" password = 4%nat
    /\ generators generator = entry_point_classes
    /\ device generator = Some (device_after (R := Toy.random) state_size 7).
Proof.
  exact (main_line Toy_spec 7).
Defined.

(** ** How a call of [Generate] ends *)

Section Outcome.

Context {R : StdRandom} {HR : StdRandomSpec R}.

Lemma collect_outcome (gens : list PasswordGenerator) :
  forall (password : string) (eng : mt19937),
    match first_offender gens with
    | None =>
        exists password' eng', collect gens password eng
                               = Returns password' eng'
    | Some (BasicPasswordGenerator _ _) =>
        collect gens password eng = Undefined
    | Some (CompositePasswordGenerator _ _ _) =>
        exists eng', collect gens password eng
                     = Throws "not implemented" eng'
    end.
Proof.
  induction gens as [|g gens IH]; intros password eng.
  - exists password, eng. reflexivity.
  - unfold first_offender. cbn [find].
    destruct g as [chars len|eng_ rd_ gens_]; cbn [acceptable].
    + destruct (Z.leb_spec 0 (upper_bound chars)) as [Hacc|Hrej];
        cbn [negb].
      * cbn [collect AllowedChars Length].
        destruct (Z.ltb_spec (upper_bound chars) 0) as [H'|_]; [lia|].
        destruct (append_chars_returns chars Hacc (N.to_nat len) password eng)
          as (p1 & e1 & block & Hrun & _).
        rewrite Hrun. cbn [bind]. apply IH.
      * now apply collect_rejected.
    + cbn [negb]. exists eng. reflexivity.
Qed.

End Outcome.

(** X7.  The first generator, in the order added, that is a composite
    or a class whose alphabet the distribution rejects decides how
    [Generate] ends: with none the call returns a password, with a
    rejected class first it is undefined, with a composite first it
    throws "not implemented"; when it returns or throws, the generators
    and the random device are as before. *)
Theorem Generate_outcome {R : StdRandom} (HR : StdRandomSpec R)
        (eng : mt19937) (rd : random_device)
        (gens : list PasswordGenerator) :
  match first_offender gens with
  | None =>
      exists password eng',
        Generate (CompositePasswordGenerator eng rd gens)
        = Returns password (CompositePasswordGenerator eng' rd gens)
  | Some (BasicPasswordGenerator _ _) =>
      Generate (CompositePasswordGenerator eng rd gens) = Undefined
  | Some (CompositePasswordGenerator _ _ _) =>
      exists eng',
        Generate (CompositePasswordGenerator eng rd gens)
        = Throws "not implemented" (CompositePasswordGenerator eng' rd gens)
  end.
Proof.
  pose proof (collect_outcome gens EmptyString eng) as H.
  unfold Generate.
  destruct (first_offender gens) as [[chars len|eng_ rd_ gens_]|].
  - now rewrite H.
  - destruct H as (eng' & ->). now exists eng'.
  - destruct H as (p & e & ->).
    destruct (shuffle p e) as [shuffled eng']. now exists shuffled, eng'.
Qed.

Lemma Generate_outcome_witness :
  (exists password eng',
      Generate (toy_composite [DigitGenerator 1; BasicPasswordGenerator "AB" 2])
      = Returns password
          (CompositePasswordGenerator (R := Toy.random) eng' 7
             [DigitGenerator 1; BasicPasswordGenerator "AB" 2]))
  /\ Generate (toy_composite
                 [DigitGenerator 1; BasicPasswordGenerator "" 1;
                  toy_composite []])
     = Undefined
  /\ (exists eng',
         Generate (toy_composite
                     [DigitGenerator 1; toy_composite [];
                      BasicPasswordGenerator "" 1])
         = Throws "not implemented"
             (CompositePasswordGenerator (R := Toy.random) eng' 7
                [DigitGenerator 1; toy_composite [];
                 BasicPasswordGenerator "" 1])).
Proof.
  split; [|split].
  - exact (Generate_outcome Toy_spec 42 7
             [DigitGenerator 1; BasicPasswordGenerator "AB" 2]).
  - exact (Generate_outcome Toy_spec 42 7
             [DigitGenerator 1; BasicPasswordGenerator "" 1;
              toy_composite []]).
  - exact (Generate_outcome Toy_spec 42 7
             [DigitGenerator 1; toy_composite [];
              BasicPasswordGenerator "" 1]).
Defined.

(** X8.  A composite can be used again: on classes whose alphabets the
    distribution accepts, a second call of [Generate] on the object the
    first call leaves returns again; each of the two passwords is
    composed of the contributions of the classes alone (the second does
    not hold the first), the second call starts from the engine state
    the first one left, and generators and random device stay as they
    were. *)
Theorem Generate_again {R : StdRandom} (HR : StdRandomSpec R)
        (eng : mt19937) (rd : random_device)
        (gens : list PasswordGenerator) :
  Forall accepted_class gens ->
  exists password1 eng1 password2 eng2,
    Generate (CompositePasswordGenerator eng rd gens)
    = Returns password1 (CompositePasswordGenerator eng1 rd gens)
    /\ Generate (CompositePasswordGenerator eng1 rd gens)
       = Returns password2 (CompositePasswordGenerator eng2 rd gens)
    /\ composed_of gens password1
    /\ composed_of gens password2
    /\ String.length password1 = String.length password2.
Proof.
  intros Hgens.
  destruct (Generate_returns eng rd gens Hgens)
    as (pw1 & eng1 & blocks1 & Hrun1 & Hblocks1 & Hperm1).
  destruct (Generate_returns eng1 rd gens Hgens)
    as (pw2 & eng2 & blocks2 & Hrun2 & Hblocks2 & Hperm2).
  assert (Hc1 : composed_of gens pw1).
  { exists blocks1. repeat split; try assumption.
    rewrite <- length_concat, (Permutation_length Hperm1).
    apply length_list_ascii_of_string. }
  assert (Hc2 : composed_of gens pw2).
  { exists blocks2. repeat split; try assumption.
    rewrite <- length_concat, (Permutation_length Hperm2).
    apply length_list_ascii_of_string. }
  exists pw1, eng1, pw2, eng2. repeat split; try assumption.
  apply composed_total_length in Hc1, Hc2.
  unfold has_total_length in Hc1, Hc2. lia.
Qed.

Lemma Generate_again_witness :
  exists password1 eng1 password2 eng2,
    Generate (toy_composite entry_point_classes)
    = Returns password1
        (CompositePasswordGenerator (R := Toy.random) eng1 7
           entry_point_classes)
    /\ Generate (CompositePasswordGenerator (R := Toy.random) eng1 7
                   entry_point_classes)
       = Returns password2
           (CompositePasswordGenerator (R := Toy.random) eng2 7
              entry_point_classes)
    /\ composed_of (R := Toy.random) entry_point_classes password1
    /\ composed_of (R := Toy.random) entry_point_classes password2
    /\ String.length password1 = String.length password2.
Proof.
  apply (Generate_again Toy_spec 42 7 entry_point_classes).
  repeat constructor; apply accepted_small; simpl; lia.
Defined.
